(** * ouroboros.c: a circular buffer of strings behind /proc/ouroboros

    A shallow embedding of the kernel module's state (the global
    [circular_buffer], [head], [tail], [line_count]) and of its three
    functions [add_to_buffer], [proc_read] and [proc_write], followed by the
    properties of the buffer protocol.

    Conventions of the embedding:
    - C [int], [ssize_t], [loff_t] and [size_t] values are [Z] with the
      wrap-around of each conversion written out ([to_int], [to_ssize_t],
      [to_loff_t], [to_size_t]); C's [%] is [Z.rem];
    - a [char] array is a [list byte]; the terminator is [x00];
    - an access to [circular_buffer] outside its [MAX_STRINGS] rows is
      undefined in C; the model reads an empty row and writes nothing
      there, and the predicate [wf] below keeps every access inside;
    - user memory behind a [__user] pointer is the list of the bytes that
      are accessible at that address; a copy of [n] bytes succeeds when [n]
      of them are accessible;
    - the [printk] calls only log and are left out; the unused [file]
      argument is dropped. *)

From Stdlib Require Import ZArith Lia List.
From Stdlib.Strings Require Import Byte String.
From stdpp Require Import base list.

Local Open Scope Z_scope.

Module Ouroboros.

(** ** Constants *)

Definition MAX_STRINGS : Z := 10.
Definition STR_SIZE : Z := 64.
Definition EFAULT : Z := 14.

(** ** C integers *)

Definition wrap_signed (bits x : Z) : Z :=
  (x + 2 ^ (bits - 1)) mod 2 ^ bits - 2 ^ (bits - 1).

Definition to_int (x : Z) : Z := wrap_signed 32 x.
Definition to_ssize_t (x : Z) : Z := wrap_signed 64 x.
Definition to_loff_t (x : Z) : Z := wrap_signed 64 x.
Definition to_size_t (x : Z) : Z := x mod 2 ^ 64.

Definition SSIZE_MAX : Z := 2 ^ 63 - 1.

(** ** C strings *)

Definition is_nul (c : byte) : bool := Byte.eqb c x00.

(** [strlen]: the number of bytes before the first terminator. *)
Fixpoint strlen (s : list byte) : nat :=
  match s with
  | [] => 0%nat
  | c :: s' => if is_nul c then 0%nat else S (strlen s')
  end.

(** [strncpy dest src count]: one byte of [src] is stored per iteration and
    the source pointer advances only past a byte that is not the terminator;
    once the terminator of [src] is reached the pointer stays on it, so the
    rest of the [count] bytes is filled with terminators.  The end of
    the list [src] stands for memory behind the modelled string
    ([strncpy_in_bounds] below says when it is not read). *)
Fixpoint strncpy (dest src : list byte) (count : nat) {struct count}
  : list byte :=
  match count, dest with
  | O, _ => dest
  | S _, [] => []
  | S n, _ :: dest' =>
      match src with
      | [] => x00 :: strncpy dest' [] n
      | c :: src' =>
          if is_nul c then x00 :: strncpy dest' src n
          else c :: strncpy dest' src' n
      end
  end.

(** The reads of [strncpy src count] stay inside the list [src]. *)
Fixpoint strncpy_in_bounds (src : list byte) (count : nat) : bool :=
  match count with
  | O => true
  | S n =>
      match src with
      | [] => false
      | c :: src' => if is_nul c then true else strncpy_in_bounds src' n
      end
  end.

(** ** The user-space boundary *)

(** [copy_from_user(to, from, n)]: [usr_buf] lists the bytes readable at
    [from]; the copy fails when fewer than [n] are. *)
Definition copy_from_user (usr_buf : list byte) (n : nat) : option (list byte) :=
  if (n <=? length usr_buf)%nat then Some (take n usr_buf) else None.

(** [copy_to_user(to, from, n)]: [usr_buf] lists the bytes writable at
    [to].  Returns the number of bytes that could not be copied, and the
    user memory afterwards. *)
Definition copy_to_user (usr_buf src : list byte) (n : nat) : nat * list byte :=
  let m := Nat.min n (length usr_buf) in
  ((n - m)%nat, take m src ++ drop m usr_buf).

(** ** Global state *)

Record kstate : Type := mk_kstate {
  circular_buffer : list (list byte);
  head : Z;
  tail : Z;
  line_count : Z
}.

(** Static storage is zero-initialised. *)
Definition init_state : kstate :=
  {| circular_buffer :=
       replicate (Z.to_nat MAX_STRINGS) (replicate (Z.to_nat STR_SIZE) x00);
     head := 0; tail := 0; line_count := 0 |}.

(** [circular_buffer[i]], for [i] inside the array. *)
Definition row (buf : list (list byte)) (i : Z) : list byte :=
  default [] (buf !! Z.to_nat i).

(** ** add_to_buffer *)

Definition add_to_buffer (st : kstate) (input : list byte) : kstate :=
  let dest := strncpy (row (circular_buffer st) (head st)) input
                      (Z.to_nat (STR_SIZE - 1)) in
  let dest := <[Z.to_nat (STR_SIZE - 1) := x00]> dest in
  let buf := <[Z.to_nat (head st) := dest]> (circular_buffer st) in
  let head' := Z.rem (to_int (head st + 1)) MAX_STRINGS in
  if line_count st <? MAX_STRINGS then
    {| circular_buffer := buf; head := head'; tail := tail st;
       line_count := to_int (line_count st + 1) |}
  else
    {| circular_buffer := buf; head := head';
       tail := Z.rem (to_int (tail st + 1)) MAX_STRINGS;
       line_count := line_count st |}.

(** ** proc_read *)

Record read_result : Type := mk_read_result {
  rd_ret : Z;              (* the ssize_t returned *)
  rd_usr : list byte;      (* the user buffer afterwards *)
  rd_pos : Z;              (* *pos afterwards *)
  rd_state : kstate        (* the globals afterwards *)
}.

Definition proc_read (st : kstate) (usr_buf : list byte) (count : Z) (pos : Z)
  : read_result :=
  if 0 <? pos then mk_read_result 0 usr_buf pos st
  else if line_count st <=? 0 then mk_read_result 0 usr_buf pos st
  else
    let target_str := row (circular_buffer st) (tail st) in
    let len := to_int (Z.of_nat (strlen target_str)) in
    let st' := {| circular_buffer := circular_buffer st;
                  head := head st;
                  tail := Z.rem (to_int (tail st + 1)) MAX_STRINGS;
                  line_count := to_int (line_count st - 1) |} in
    let '(uncopied, usr') :=
      copy_to_user usr_buf target_str (Z.to_nat (to_size_t len)) in
    if negb (uncopied =? 0)%nat then mk_read_result (- EFAULT) usr' pos st'
    else mk_read_result (to_ssize_t len) usr' (to_loff_t (pos + len)) st'.

(** ** proc_write *)

(** [kbuf] is modelled by its initialised prefix: the [len] bytes copied
    from the user and the terminator written at [kbuf[len]]. *)
Definition proc_write (st : kstate) (usr_buf : list byte) (count : Z)
  : Z * kstate :=
  let len := Z.min count (STR_SIZE - 1) in
  match copy_from_user usr_buf (Z.to_nat len) with
  | None => (- EFAULT, st)
  | Some bytes =>
      let kbuf := bytes ++ [x00] in
      (to_ssize_t count, add_to_buffer st kbuf)
  end.

(** ** The two operations of the channel, as the spec names them *)

(** [append data]: a write of the whole byte sequence [data]. *)
Definition append (st : kstate) (data : list byte) : Z * kstate :=
  proc_write st data (Z.of_nat (length data)).

(** [consume]: a read in a fresh session ([*pos = 0]). *)
Definition consume (st : kstate) (usr_buf : list byte) (count : Z) : read_result :=
  proc_read st usr_buf count 0.

(** The bytes a read hands to its caller: the first [rd_ret] bytes of the
    user buffer. *)
Definition delivered (r : read_result) : list byte :=
  take (Z.to_nat (rd_ret r)) (rd_usr r).

(** ** Calls and runs *)

Inductive call : Type :=
  | Write (usr_buf : list byte) (count : Z)
  | Read (usr_buf : list byte) (count : Z) (pos : Z).

Definition step (st : kstate) (c : call) : kstate :=
  match c with
  | Write usr_buf count => snd (proc_write st usr_buf count)
  | Read usr_buf count pos => rd_state (proc_read st usr_buf count pos)
  end.

Definition run (st : kstate) (cs : list call) : kstate := fold_left step cs st.

Definition append_all (st : kstate) (ins : list (list byte)) : kstate :=
  fold_left (fun s data => snd (append s data)) ins st.

(** [consume_n n st usr_buf count]: [n] successive fresh-session reads, each
    into the same kind of user buffer; the list of (return value, bytes
    delivered) and the final state. *)
Fixpoint consume_n (n : nat) (st : kstate) (usr_buf : list byte) (count : Z)
  : list (Z * list byte) * kstate :=
  match n with
  | O => ([], st)
  | S n' =>
      let r := consume st usr_buf count in
      let '(rs, st') := consume_n n' (rd_state r) usr_buf count in
      ((rd_ret r, delivered r) :: rs, st')
  end.

Definition text (s : string) : list byte := list_byte_of_string s.

(** ** Invariants of the state *)

(** The indices stay inside the array and the counter inside [0, MAX_STRINGS]. *)
Definition indices_in_range (st : kstate) : Prop :=
  0 <= head st < MAX_STRINGS /\
  0 <= tail st < MAX_STRINGS /\
  0 <= line_count st <= MAX_STRINGS.

(** The write index is [line_count] places after the read index. *)
Definition head_follows_tail (st : kstate) : Prop :=
  head st = (tail st + line_count st) mod MAX_STRINGS.

(** Every row is a [char[STR_SIZE]] whose last byte is the terminator. *)
Definition row_ok (r : list byte) : Prop :=
  length r = Z.to_nat STR_SIZE /\ r !! Z.to_nat (STR_SIZE - 1) = Some x00.

Definition rows_ok (buf : list (list byte)) : Prop :=
  length buf = Z.to_nat MAX_STRINGS /\ Forall row_ok buf.

Definition wf (st : kstate) : Prop :=
  indices_in_range st /\ head_follows_tail st /\ rows_ok (circular_buffer st).

(** ** The queue a state stands for *)

(** The string held in a [char] array: its bytes up to the terminator. *)
Definition c_str (s : list byte) : list byte := take (strlen s) s.

(** The record an append of [data] stores: at most [STR_SIZE - 1] bytes of
    [data], cut at the first terminator among them. *)
Definition record_of (data : list byte) : list byte :=
  c_str (take (Z.to_nat (STR_SIZE - 1)) data).

(** A byte sequence that is a record as it stands: no terminator inside and
    at most [STR_SIZE - 1] bytes. *)
Definition is_record (data : list byte) : Prop :=
  Forall (fun c => c <> x00) data /\ Z.of_nat (length data) <= STR_SIZE - 1.

(** The strings of [n] rows from row [t] on, wrapping around. *)
Fixpoint queue_from (buf : list (list byte)) (t : Z) (n : nat) : list (list byte) :=
  match n with
  | O => []
  | S n' => c_str (row buf t) :: queue_from buf ((t + 1) mod MAX_STRINGS) n'
  end.

(** The unread records, oldest first. *)
Definition queue (st : kstate) : list (list byte) :=
  queue_from (circular_buffer st) (tail st) (Z.to_nat (line_count st)).

(** The state once the oldest record has been taken out. *)
Definition taken (st : kstate) : kstate :=
  {| circular_buffer := circular_buffer st;
     head := head st;
     tail := (tail st + 1) mod MAX_STRINGS;
     line_count := line_count st - 1 |}.

(** The oldest unread record. *)
Definition oldest (st : kstate) : list byte :=
  c_str (row (circular_buffer st) (tail st)).

(** The last [n] elements of a list. *)
Definition keep_last {A} (n : nat) (l : list A) : list A :=
  drop (length l - n) l.

(** What a successful read of record [r] returns: its length and its bytes. *)
Definition reading (r : list byte) : Z * list byte := (Z.of_nat (length r), r).

(** The three ways out of [proc_read]. *)
Inductive read_case (st : kstate) (usr_buf : list byte) (pos : Z)
  : read_result -> Prop :=
  | read_eof r :
      0 < pos \/ line_count st <= 0 ->
      r = mk_read_result 0 usr_buf pos st ->
      read_case st usr_buf pos r
  | read_taken r :
      pos <= 0 -> 0 < line_count st ->
      rd_state r =
        {| circular_buffer := circular_buffer st; head := head st;
           tail := Z.rem (to_int (tail st + 1)) MAX_STRINGS;
           line_count := to_int (line_count st - 1) |} ->
      read_case st usr_buf pos r.

(** ** The buffer as a bounded queue *)

(** What one call does to the queue of unread records: a write whose bytes
    are readable adds the string of the bytes it copied and keeps the last
    [MAX_STRINGS] records; a read at a position that is not positive drops
    the oldest record, if there is one; a write that faults and a read at a
    positive position change nothing. *)
Definition queue_step (q : list (list byte)) (c : call) : list (list byte) :=
  match c with
  | Write usr_buf count =>
      let n := Z.to_nat (Z.min count (STR_SIZE - 1)) in
      if (n <=? length usr_buf)%nat
      then keep_last (Z.to_nat MAX_STRINGS) (q ++ [c_str (take n usr_buf)])
      else q
  | Read _ _ pos => if 0 <? pos then q else drop 1 q
  end.

Definition queue_run (q : list (list byte)) (cs : list call) : list (list byte) :=
  fold_left queue_step cs q.

(** [read_session n st usr_buf count pos]: [n] successive reads through one
    open file, the position left by each read being passed to the next; the
    list of (return value, bytes delivered), the final position and the
    final state. *)
Fixpoint read_session (n : nat) (st : kstate) (usr_buf : list byte)
    (count pos : Z) : list (Z * list byte) * Z * kstate :=
  match n with
  | O => ([], pos, st)
  | S n' =>
      let r := proc_read st usr_buf count pos in
      let '(rs, pos', st') :=
        read_session n' (rd_state r) usr_buf count (rd_pos r) in
      ((rd_ret r, delivered r) :: rs, pos', st')
  end.

(** ** Statements taken from the specification as they are worded *)

(** Truncation, for an arbitrary byte sequence: the first
    [min (length data) (STR_SIZE - 1)] bytes of the row written are those of
    [data], and the byte after them is the terminator. *)
Definition truncation_claim (st : kstate) (data : list byte) : Prop :=
  let len := Nat.min (length data) (Z.to_nat (STR_SIZE - 1)) in
  let stored := row (circular_buffer (snd (append st data))) (head st) in
  take len stored = take len data /\ stored !! len = Some x00.

(** Atomicity of a read: when the copy to the user faults, the state is the
    one before the call. *)
Definition read_atomic_claim (st : kstate) (usr_buf : list byte) (count pos : Z)
  : Prop :=
  rd_ret (proc_read st usr_buf count pos) = - EFAULT ->
  rd_state (proc_read st usr_buf count pos) = st.

(** * Properties *)

(** ** Arithmetic of the C integer types *)

Lemma wrap_signed_small bits x :
  0 < bits -> - 2 ^ (bits - 1) <= x < 2 ^ (bits - 1) -> wrap_signed bits x = x.
Proof.
  intros Hb Hx. unfold wrap_signed.
  replace (2 ^ bits) with (2 * 2 ^ (bits - 1)).
  - rewrite Z.mod_small; lia.
  - rewrite <- Z.pow_succ_r by lia. f_equal. lia.
Qed.

Lemma to_int_small x : - 2 ^ 31 <= x < 2 ^ 31 -> to_int x = x.
Proof. intros H. apply wrap_signed_small; [lia | exact H]. Qed.

Lemma to_ssize_t_small x : - 2 ^ 63 <= x < 2 ^ 63 -> to_ssize_t x = x.
Proof. intros H. apply wrap_signed_small; [lia | exact H]. Qed.

Lemma to_loff_t_small x : - 2 ^ 63 <= x < 2 ^ 63 -> to_loff_t x = x.
Proof. intros H. apply wrap_signed_small; [lia | exact H]. Qed.

Lemma to_size_t_small x : 0 <= x < 2 ^ 64 -> to_size_t x = x.
Proof. intros H. unfold to_size_t. apply Z.mod_small, H. Qed.

(** Advancing an index that is in range: C's [%] agrees with [mod]. *)
Lemma advance_index i :
  0 <= i < MAX_STRINGS ->
  Z.rem (to_int (i + 1)) MAX_STRINGS = (i + 1) mod MAX_STRINGS.
Proof.
  unfold MAX_STRINGS. intros Hi.
  rewrite to_int_small by lia.
  apply Z.rem_mod_nonneg; lia.
Qed.

Lemma advance_index_range i :
  0 <= i < MAX_STRINGS -> 0 <= (i + 1) mod MAX_STRINGS < MAX_STRINGS.
Proof. unfold MAX_STRINGS. intros _. apply Z.mod_pos_bound. lia. Qed.

(** Goals about indices: linear arithmetic with [mod MAX_STRINGS]. *)
Ltac idx_arith :=
  unfold MAX_STRINGS in *; Z.div_mod_to_equations; lia.

(** ** The fields after each function *)

Lemma add_to_buffer_head st input :
  head (add_to_buffer st input) = Z.rem (to_int (head st + 1)) MAX_STRINGS.
Proof. unfold add_to_buffer. destruct (line_count st <? MAX_STRINGS); reflexivity. Qed.

Lemma add_to_buffer_tail st input :
  tail (add_to_buffer st input) =
  if line_count st <? MAX_STRINGS then tail st
  else Z.rem (to_int (tail st + 1)) MAX_STRINGS.
Proof. unfold add_to_buffer. destruct (line_count st <? MAX_STRINGS); reflexivity. Qed.

Lemma add_to_buffer_line_count st input :
  line_count (add_to_buffer st input) =
  if line_count st <? MAX_STRINGS then to_int (line_count st + 1)
  else line_count st.
Proof. unfold add_to_buffer. destruct (line_count st <? MAX_STRINGS); reflexivity. Qed.

Lemma add_to_buffer_rows st input :
  circular_buffer (add_to_buffer st input) =
  <[Z.to_nat (head st) :=
      <[Z.to_nat (STR_SIZE - 1) := x00]>
        (strncpy (row (circular_buffer st) (head st)) input
                 (Z.to_nat (STR_SIZE - 1)))]> (circular_buffer st).
Proof. unfold add_to_buffer. destruct (line_count st <? MAX_STRINGS); reflexivity. Qed.

Lemma proc_read_cases st usr_buf count pos :
  read_case st usr_buf pos (proc_read st usr_buf count pos).
Proof.
  unfold proc_read.
  destruct (Z.ltb_spec 0 pos) as [Hp | Hp].
  { apply read_eof; [lia | reflexivity]. }
  destruct (Z.leb_spec (line_count st) 0) as [Hc | Hc].
  { apply read_eof; [lia | reflexivity]. }
  apply read_taken; [lia | lia |].
  destruct (copy_to_user _ _ _) as [uncopied usr'].
  destruct (negb _); reflexivity.
Qed.

Lemma proc_write_state st usr_buf count :
  snd (proc_write st usr_buf count) = st \/
  exists kbuf, snd (proc_write st usr_buf count) = add_to_buffer st kbuf.
Proof.
  unfold proc_write. destruct (copy_from_user _ _); [right | left]; eauto.
Qed.

(** ** Preservation of the index invariants *)

Lemma add_to_buffer_indices st input :
  indices_in_range st -> indices_in_range (add_to_buffer st input).
Proof.
  intros (Hh & Ht & Hc). unfold indices_in_range.
  rewrite add_to_buffer_head, add_to_buffer_tail, add_to_buffer_line_count.
  rewrite (advance_index _ Hh).
  destruct (Z.ltb_spec (line_count st) MAX_STRINGS) as [Hlt | Hge].
  - rewrite to_int_small by (unfold MAX_STRINGS in *; lia).
    pose proof (advance_index_range _ Hh). lia.
  - rewrite (advance_index _ Ht).
    pose proof (advance_index_range _ Hh).
    pose proof (advance_index_range _ Ht). lia.
Qed.

Lemma add_to_buffer_follows st input :
  indices_in_range st -> head_follows_tail st ->
  head_follows_tail (add_to_buffer st input).
Proof.
  intros (Hh & Ht & Hc) Hf. unfold head_follows_tail in *.
  rewrite add_to_buffer_head, add_to_buffer_tail, add_to_buffer_line_count.
  rewrite (advance_index _ Hh).
  destruct (Z.ltb_spec (line_count st) MAX_STRINGS) as [Hlt | Hge].
  - rewrite to_int_small by (unfold MAX_STRINGS in *; lia). idx_arith.
  - rewrite (advance_index _ Ht). idx_arith.
Qed.

Lemma step_indices st c : indices_in_range st -> indices_in_range (step st c).
Proof.
  intros Hi. destruct c as [usr_buf count | usr_buf count pos]; simpl.
  - destruct (proc_write_state st usr_buf count) as [-> | [kbuf ->]];
      [exact Hi | apply add_to_buffer_indices, Hi].
  - destruct (proc_read_cases st usr_buf count pos) as [r _ -> | r _ Hc ->];
      [exact Hi |].
    destruct Hi as (Hh & Ht & Hn). unfold indices_in_range; simpl.
    rewrite (advance_index _ Ht).
    rewrite to_int_small by (unfold MAX_STRINGS in *; lia).
    pose proof (advance_index_range _ Ht). lia.
Qed.

Lemma step_follows st c :
  indices_in_range st -> head_follows_tail st -> head_follows_tail (step st c).
Proof.
  intros Hi Hf. destruct c as [usr_buf count | usr_buf count pos]; simpl.
  - destruct (proc_write_state st usr_buf count) as [-> | [kbuf ->]];
      [exact Hf | apply add_to_buffer_follows; assumption].
  - destruct (proc_read_cases st usr_buf count pos) as [r _ -> | r _ Hc ->];
      [exact Hf |].
    destruct Hi as (Hh & Ht & Hn). unfold head_follows_tail in *; simpl.
    rewrite (advance_index _ Ht).
    rewrite to_int_small by (unfold MAX_STRINGS in *; lia).
    idx_arith.
Qed.

Lemma init_indices : indices_in_range init_state.
Proof. unfold indices_in_range, MAX_STRINGS; simpl; lia. Qed.

Lemma init_follows : head_follows_tail init_state.
Proof. reflexivity. Qed.

Lemma run_indices cs : forall st,
  indices_in_range st -> indices_in_range (run st cs).
Proof.
  induction cs as [| c cs IH]; intros st Hi; simpl; [exact Hi |].
  apply IH, step_indices, Hi.
Qed.

Lemma run_follows cs : forall st,
  indices_in_range st -> head_follows_tail st -> head_follows_tail (run st cs).
Proof.
  induction cs as [| c cs IH]; intros st Hi Hf; simpl; [exact Hf |].
  apply IH; [apply step_indices, Hi | apply step_follows; assumption].
Qed.

(** ** C strings *)

Lemma is_nul_true c : is_nul c = true <-> c = x00.
Proof.
  unfold is_nul. split.
  - apply Byte.byte_dec_bl.
  - apply Byte.byte_dec_lb.
Qed.

Lemma is_nul_false c : is_nul c = false <-> c <> x00.
Proof.
  rewrite <- is_nul_true. destruct (is_nul c); split; congruence.
Qed.

Lemma c_str_nil : c_str [] = [].
Proof. reflexivity. Qed.

Lemma c_str_cons c s :
  c_str (c :: s) = if is_nul c then [] else c :: c_str s.
Proof. unfold c_str; simpl. destruct (is_nul c); reflexivity. Qed.

Lemma strlen_le s : (strlen s <= length s)%nat.
Proof.
  induction s as [| c s IH]; simpl; [lia |].
  destruct (is_nul c); lia.
Qed.

Lemma c_str_length s : length (c_str s) = strlen s.
Proof. unfold c_str. rewrite length_take. pose proof (strlen_le s). lia. Qed.

Lemma c_str_no_nul s : Forall (fun c => c <> x00) (c_str s).
Proof.
  induction s as [| c s IH]; [constructor |].
  rewrite c_str_cons. destruct (is_nul c) eqn:E; constructor; [| exact IH].
  apply is_nul_false, E.
Qed.

(** A string followed by a terminator reads back as itself. *)
Lemma c_str_app_nul s rest :
  Forall (fun c => c <> x00) s -> c_str (s ++ x00 :: rest) = s.
Proof.
  induction 1 as [| c s Hc _ IH]; simpl.
  - rewrite c_str_cons. reflexivity.
  - rewrite c_str_cons. apply is_nul_false in Hc. rewrite Hc, IH. reflexivity.
Qed.

Lemma c_str_text s : Forall (fun c => c <> x00) s -> c_str s = s.
Proof.
  induction 1 as [| c s Hc _ IH]; [reflexivity |].
  rewrite c_str_cons. apply is_nul_false in Hc. rewrite Hc, IH. reflexivity.
Qed.

Lemma c_str_snoc_nul s : c_str (s ++ [x00]) = c_str s.
Proof.
  induction s as [| c s IH]; simpl.
  - rewrite c_str_cons. reflexivity.
  - rewrite !c_str_cons, IH. reflexivity.
Qed.

(** A row that ends in a terminator holds a string shorter than the row. *)
Lemma strlen_lt_of_nul s i :
  s !! i = Some x00 -> (strlen s <= i)%nat.
Proof.
  revert i. induction s as [| c s IH]; intros i Hi; simpl; [lia |].
  destruct (is_nul c) eqn:E; [lia |].
  destruct i as [| i]; simpl in Hi.
  - injection Hi as ->. discriminate E.
  - specialize (IH _ Hi). lia.
Qed.

Lemma row_ok_strlen r : row_ok r -> (Z.of_nat (strlen r) <= STR_SIZE - 1).
Proof.
  intros [_ Hn]. apply strlen_lt_of_nul in Hn. unfold STR_SIZE in *. lia.
Qed.

(** ** strncpy *)

Lemma strncpy_length n : forall dest src,
  length (strncpy dest src n) = length dest.
Proof.
  induction n as [| n IH]; intros dest src; [reflexivity |].
  destruct dest as [| d dest]; [reflexivity |]. simpl.
  destruct src as [| c src]; simpl; [now rewrite IH |].
  destruct (is_nul c); simpl; now rewrite IH.
Qed.

(** What [strncpy] leaves in [dest]: the source string, padded with
    terminators up to [count] bytes, then the old bytes of [dest]. *)
Lemma strncpy_spec n : forall dest src,
  (n <= length dest)%nat ->
  strncpy dest src n = take n (c_str src ++ replicate n x00) ++ drop n dest.
Proof.
  induction n as [| n IH]; intros dest src Hn; [reflexivity |].
  destruct dest as [| d dest]; simpl in Hn; [lia |].
  assert (Hn' : (n <= length dest)%nat) by lia.
  assert (Hpad : forall dest', (n <= length dest')%nat ->
            strncpy dest' [] n = replicate n x00 ++ drop n dest').
  { intros dest' H. rewrite IH by exact H. rewrite c_str_nil. simpl.
    rewrite take_ge by (rewrite length_replicate; lia). reflexivity. }
  cbn [strncpy].
  destruct src as [| c src].
  - rewrite Hpad by exact Hn'. rewrite c_str_nil. simpl.
    rewrite take_ge by (rewrite length_replicate; lia). reflexivity.
  - rewrite c_str_cons. destruct (is_nul c) eqn:E.
    + rewrite IH by exact Hn'. rewrite c_str_cons, E. simpl.
      rewrite !take_ge by (rewrite length_replicate; lia). reflexivity.
    + rewrite IH by exact Hn'. simpl. f_equal. f_equal.
      rewrite !take_app. f_equal.
      change (x00 :: replicate n x00) with (replicate (S n) x00).
      rewrite !take_replicate. f_equal. lia.
Qed.

Lemma take_c_str s : forall n, take n (c_str s) = c_str (take n s).
Proof.
  induction s as [| c s IH]; intros [| n]; try reflexivity.
  simpl take at 2. rewrite !c_str_cons.
  destruct (is_nul c); [reflexivity |]. simpl. now rewrite IH.
Qed.

Lemma record_of_c_str input :
  record_of input = take (Z.to_nat (STR_SIZE - 1)) (c_str input).
Proof. unfold record_of. now rewrite take_c_str. Qed.

Lemma record_of_length data :
  Z.of_nat (length (record_of data)) <= STR_SIZE - 1.
Proof.
  rewrite record_of_c_str, length_take. unfold STR_SIZE. lia.
Qed.

Lemma record_of_no_nul data : Forall (fun c => c <> x00) (record_of data).
Proof. apply c_str_no_nul. Qed.

(** A record is stored as it is. *)
Lemma record_of_is_record data : is_record data -> record_of data = data.
Proof.
  intros [Hn Hl]. unfold record_of.
  rewrite take_ge by (unfold STR_SIZE in *; lia).
  apply c_str_text, Hn.
Qed.

(** [kbuf] in [proc_write]: the copied bytes and their terminator. *)
Lemma record_of_kbuf bytes :
  Z.of_nat (length bytes) <= STR_SIZE - 1 ->
  record_of (bytes ++ [x00]) = c_str bytes.
Proof.
  intros Hl. rewrite record_of_c_str, c_str_snoc_nul, take_c_str.
  rewrite take_ge by (unfold STR_SIZE in *; lia). reflexivity.
Qed.

Lemma kbuf_in_bounds bytes n :
  (length bytes <= n)%nat -> strncpy_in_bounds (bytes ++ [x00]) n = true.
Proof.
  revert n. induction bytes as [| c bytes IH]; intros n Hn; simpl in *.
  - destruct n; reflexivity.
  - destruct n as [| n]; [lia |]. simpl.
    destruct (is_nul c); [reflexivity | apply IH; lia].
Qed.

(** ** Rows of the buffer *)

Lemma row_insert_eq (buf : list (list byte)) h r :
  0 <= h < Z.of_nat (length buf) -> row (<[Z.to_nat h := r]> buf) h = r.
Proof.
  intros Hh. unfold row. rewrite list_lookup_insert_eq by lia. reflexivity.
Qed.

Lemma row_insert_ne (buf : list (list byte)) h t r :
  0 <= h -> 0 <= t -> h <> t -> row (<[Z.to_nat h := r]> buf) t = row buf t.
Proof.
  intros Hh Ht Hne. unfold row. rewrite list_lookup_insert_ne by lia. reflexivity.
Qed.

Lemma rows_ok_row buf i :
  rows_ok buf -> 0 <= i < MAX_STRINGS -> row_ok (row buf i).
Proof.
  intros [Hlen Hall] Hi. unfold row.
  destruct (buf !! Z.to_nat i) as [r |] eqn:E.
  - simpl. eapply Forall_lookup_1; eassumption.
  - apply lookup_ge_None in E. unfold MAX_STRINGS in *. lia.
Qed.

(** The row written by [add_to_buffer]. *)
Lemma written_row_ok dest input :
  length dest = Z.to_nat STR_SIZE ->
  row_ok (<[Z.to_nat (STR_SIZE - 1) := x00]>
            (strncpy dest input (Z.to_nat (STR_SIZE - 1)))).
Proof.
  intros Hl. split.
  - now rewrite length_insert, strncpy_length.
  - apply list_lookup_insert_eq. rewrite strncpy_length, Hl.
    unfold STR_SIZE. lia.
Qed.

(** The row [add_to_buffer] writes: the record, then terminators up to the
    end of the row. *)
Lemma strncpy_terminated n dest input :
  length dest = S n ->
  <[n := x00]> (strncpy dest input n) =
  take n (c_str input) ++ replicate (S n - length (take n (c_str input))) x00.
Proof.
  intros Hl. rewrite strncpy_spec by lia.
  assert (Hp : length (take n (c_str input ++ replicate n x00)) = n).
  { rewrite length_take, length_app, length_replicate. lia. }
  rewrite insert_app_r_alt by lia. rewrite Hp, Nat.sub_diag.
  destruct (drop n dest) as [| d rest] eqn:Ed.
  { apply (f_equal length) in Ed. rewrite length_drop in Ed. simpl in Ed. lia. }
  assert (rest = []) as ->.
  { apply (f_equal length) in Ed. rewrite length_drop in Ed. simpl in Ed.
    destruct rest; [reflexivity | simpl in Ed; lia]. }
  cbn [list_insert insert]. rewrite take_app, take_replicate, <- app_assoc.
  f_equal. rewrite length_take.
  change [x00] with (replicate 1 x00). rewrite <- replicate_add.
  f_equal. lia.
Qed.

Lemma written_row_eq dest input :
  length dest = Z.to_nat STR_SIZE ->
  <[Z.to_nat (STR_SIZE - 1) := x00]>
    (strncpy dest input (Z.to_nat (STR_SIZE - 1)))
  = record_of input
    ++ replicate (Z.to_nat STR_SIZE - length (record_of input)) x00.
Proof.
  intros Hl. rewrite record_of_c_str.
  apply strncpy_terminated. rewrite Hl. reflexivity.
Qed.

Lemma written_row_c_str dest input :
  length dest = Z.to_nat STR_SIZE ->
  c_str (<[Z.to_nat (STR_SIZE - 1) := x00]>
           (strncpy dest input (Z.to_nat (STR_SIZE - 1)))) = record_of input.
Proof.
  intros Hl. rewrite written_row_eq by exact Hl.
  pose proof (record_of_length input) as Hr.
  destruct (Z.to_nat STR_SIZE - length (record_of input))%nat as [| k] eqn:Ek.
  { unfold STR_SIZE in *. lia. }
  apply c_str_app_nul, record_of_no_nul.
Qed.

(** ** The queue *)

Lemma queue_from_insert_other (buf : list (list byte)) h r n : forall t,
  0 <= h < MAX_STRINGS -> 0 <= t < MAX_STRINGS ->
  (forall i, 0 <= i < Z.of_nat n -> (t + i) mod MAX_STRINGS <> h) ->
  queue_from (<[Z.to_nat h := r]> buf) t n = queue_from buf t n.
Proof.
  induction n as [| n IH]; intros t Hh Ht Hne; [reflexivity |].
  simpl. f_equal.
  - f_equal. apply row_insert_ne; try (unfold MAX_STRINGS in *; lia).
    specialize (Hne 0 ltac:(lia)). intros ->. apply Hne. idx_arith.
  - apply IH; [exact Hh | apply advance_index_range, Ht |].
    intros i Hi. specialize (Hne (i + 1) ltac:(lia)).
    intros E. apply Hne. rewrite <- E. idx_arith.
Qed.

Lemma queue_from_snoc buf n : forall t,
  0 <= t < MAX_STRINGS ->
  queue_from buf t (S n) =
  queue_from buf t n ++ [c_str (row buf ((t + Z.of_nat n) mod MAX_STRINGS))].
Proof.
  induction n as [| n IH]; intros t Ht.
  - simpl. do 3 f_equal. idx_arith.
  - change (queue_from buf t (S (S n)))
      with (c_str (row buf t) :: queue_from buf ((t + 1) mod MAX_STRINGS) (S n)).
    rewrite IH by (apply advance_index_range, Ht).
    simpl. do 5 f_equal. idx_arith.
Qed.

Lemma queue_from_length buf n : forall t, length (queue_from buf t n) = n.
Proof. induction n as [| n IH]; intros t; simpl; [reflexivity | now rewrite IH]. Qed.

(** ** Well-formed states *)

Lemma init_wf : wf init_state.
Proof.
  split; [apply init_indices | split; [apply init_follows |]].
  split; [reflexivity |].
  apply Forall_replicate. split; reflexivity.
Qed.

Lemma add_to_buffer_wf st input : wf st -> wf (add_to_buffer st input).
Proof.
  intros (Hi & Hf & Hr).
  split; [apply add_to_buffer_indices, Hi |].
  split; [apply add_to_buffer_follows; assumption |].
  rewrite add_to_buffer_rows. destruct Hr as [Hlen Hall].
  split; [now rewrite length_insert |].
  apply Forall_insert; [exact Hall |].
  apply written_row_ok.
  apply (rows_ok_row (circular_buffer st) (head st)); [split; assumption | apply Hi].
Qed.

Lemma taken_wf st : wf st -> 0 < line_count st -> wf (taken st).
Proof.
  intros ((Hh & Ht & Hn) & Hf & Hr) Hc.
  split; [| split; [| exact Hr]].
  - unfold indices_in_range; simpl.
    pose proof (advance_index_range _ Ht). lia.
  - unfold head_follows_tail in *; simpl. idx_arith.
Qed.

Lemma oldest_length st :
  wf st -> Z.of_nat (length (oldest st)) <= STR_SIZE - 1.
Proof.
  intros (Hi & _ & Hr). unfold oldest. rewrite c_str_length.
  apply row_ok_strlen, rows_ok_row; [exact Hr | apply Hi].
Qed.

(** ** What the functions do on a well-formed state *)

(** A write whose bytes are readable stores them and returns [count]. *)
Lemma proc_write_ok st usr_buf count :
  Z.min count (STR_SIZE - 1) <= Z.of_nat (length usr_buf) ->
  proc_write st usr_buf count =
  (to_ssize_t count,
   add_to_buffer st
     (take (Z.to_nat (Z.min count (STR_SIZE - 1))) usr_buf ++ [x00])).
Proof.
  intros Hl. unfold proc_write, copy_from_user.
  destruct (Nat.leb_spec (Z.to_nat (Z.min count (STR_SIZE - 1))) (length usr_buf));
    [reflexivity | lia].
Qed.

(** A write whose bytes are not readable fails and changes nothing. *)
Lemma proc_write_fault st usr_buf count :
  Z.of_nat (length usr_buf) < Z.min count (STR_SIZE - 1) ->
  proc_write st usr_buf count = (- EFAULT, st).
Proof.
  intros Hl. unfold proc_write, copy_from_user.
  destruct (Nat.leb_spec (Z.to_nat (Z.min count (STR_SIZE - 1))) (length usr_buf));
    [lia | reflexivity].
Qed.

Lemma append_eq st data :
  append st data =
  (to_ssize_t (Z.of_nat (length data)),
   add_to_buffer st (take (Z.to_nat (STR_SIZE - 1)) data ++ [x00])).
Proof.
  unfold append. rewrite proc_write_ok by lia. do 3 f_equal.
  destruct (Z.min_spec (Z.of_nat (length data)) (STR_SIZE - 1)) as [[Hlt ->] | [Hge ->]];
    [| reflexivity].
  rewrite !take_ge by lia. reflexivity.
Qed.

(** A read that takes a record, with room for it in the user buffer. *)
Lemma proc_read_taken st usr_buf count pos :
  wf st -> pos <= 0 -> 0 < line_count st ->
  (length (oldest st) <= length usr_buf)%nat ->
  proc_read st usr_buf count pos =
  mk_read_result (Z.of_nat (length (oldest st)))
                 (oldest st ++ drop (length (oldest st)) usr_buf)
                 (to_loff_t (pos + Z.of_nat (length (oldest st))))
                 (taken st).
Proof.
  intros Hwf Hp Hc Hroom.
  pose proof (oldest_length st Hwf) as Hlen.
  destruct Hwf as ((Hh & Ht & Hn) & Hf & Hr).
  unfold oldest in *. rewrite c_str_length in *.
  unfold proc_read, copy_to_user, taken.
  destruct (Z.ltb_spec 0 pos); [lia |].
  destruct (Z.leb_spec (line_count st) 0); [lia |].
  rewrite (advance_index _ Ht).
  rewrite !to_int_small by (unfold MAX_STRINGS, STR_SIZE in *; lia).
  rewrite to_size_t_small by (unfold STR_SIZE in *; lia).
  rewrite Nat2Z.id, Nat.min_l by lia.
  rewrite Nat.sub_diag. simpl negb. cbv iota.
  rewrite to_ssize_t_small by (unfold STR_SIZE in *; lia).
  reflexivity.
Qed.

(** A read that takes a record the user buffer has no room for. *)
Lemma proc_read_fault st usr_buf count pos :
  wf st -> pos <= 0 -> 0 < line_count st ->
  (length usr_buf < length (oldest st))%nat ->
  rd_ret (proc_read st usr_buf count pos) = - EFAULT /\
  rd_pos (proc_read st usr_buf count pos) = pos /\
  rd_state (proc_read st usr_buf count pos) = taken st.
Proof.
  intros Hwf Hp Hc Hroom.
  pose proof (oldest_length st Hwf) as Hlen.
  destruct Hwf as ((Hh & Ht & Hn) & Hf & Hr).
  unfold oldest in *. rewrite c_str_length in *.
  unfold proc_read, copy_to_user, taken.
  destruct (Z.ltb_spec 0 pos); [lia |].
  destruct (Z.leb_spec (line_count st) 0); [lia |].
  rewrite (advance_index _ Ht).
  rewrite !to_int_small by (unfold MAX_STRINGS, STR_SIZE in *; lia).
  rewrite to_size_t_small by (unfold STR_SIZE in *; lia).
  rewrite Nat2Z.id, Nat.min_r by lia.
  destruct (Nat.eqb_spec (strlen (row (circular_buffer st) (tail st)) - length usr_buf) 0);
    [lia |].
  simpl. auto.
Qed.

(** ** The queue after each function *)

Lemma queue_uncons st :
  0 < line_count st -> queue st = oldest st :: queue (taken st).
Proof.
  intros Hc. unfold queue, oldest, taken; simpl.
  replace (Z.to_nat (line_count st)) with (S (Z.to_nat (line_count st - 1))) by lia.
  reflexivity.
Qed.

Lemma queue_length st : 0 <= line_count st -> Z.of_nat (length (queue st)) = line_count st.
Proof. intros Hc. unfold queue. rewrite queue_from_length. lia. Qed.

Lemma add_to_buffer_queue st input :
  wf st ->
  queue (add_to_buffer st input) =
  (if line_count st <? MAX_STRINGS then queue st else drop 1 (queue st))
  ++ [record_of input].
Proof.
  intros Hwf. pose proof Hwf as ((Hh & Ht & Hn) & Hf & Hr).
  unfold head_follows_tail in Hf.
  assert (Hrow : length (row (circular_buffer st) (head st)) = Z.to_nat STR_SIZE).
  { apply (rows_ok_row _ (head st) Hr Hh). }
  assert (Hbuf : 0 <= head st < Z.of_nat (length (circular_buffer st))).
  { destruct Hr as [-> _]. unfold MAX_STRINGS in *. lia. }
  unfold queue.
  rewrite add_to_buffer_rows, add_to_buffer_tail, add_to_buffer_line_count.
  destruct (Z.ltb_spec (line_count st) MAX_STRINGS) as [Hlt | Hge].
  - rewrite to_int_small by (unfold MAX_STRINGS in *; lia).
    replace (Z.to_nat (line_count st + 1)) with (S (Z.to_nat (line_count st))) by lia.
    rewrite queue_from_snoc by exact Ht.
    rewrite Z2Nat.id by lia. rewrite <- Hf.
    rewrite row_insert_eq by exact Hbuf.
    rewrite written_row_c_str by exact Hrow.
    f_equal. apply queue_from_insert_other; [exact Hh | exact Ht |].
    intros i Hi. rewrite Hf. idx_arith.
  - assert (Hfull : line_count st = MAX_STRINGS) by lia.
    rewrite (advance_index _ Ht).
    rewrite Hfull.
    assert (Hn9 : exists n, Z.to_nat MAX_STRINGS = S n /\ Z.of_nat n = MAX_STRINGS - 1).
    { exists (Z.to_nat (MAX_STRINGS - 1)). unfold MAX_STRINGS. split; lia. }
    destruct Hn9 as (n & -> & Hn9).
    rewrite queue_from_snoc by (apply advance_index_range, Ht).
    replace (((tail st + 1) mod MAX_STRINGS + Z.of_nat n) mod MAX_STRINGS)
      with (head st) by (rewrite Hf, Hn9; idx_arith).
    rewrite row_insert_eq by exact Hbuf.
    rewrite written_row_c_str by exact Hrow.
    f_equal. change (drop 1 (queue_from (circular_buffer st) (tail st) (S n)))
      with (queue_from (circular_buffer st) ((tail st + 1) mod MAX_STRINGS) n).
    apply queue_from_insert_other;
      [exact Hh | apply advance_index_range, Ht |].
    intros i Hi. rewrite Hf. idx_arith.
Qed.

Lemma append_wf st data : wf st -> wf (snd (append st data)).
Proof. intros Hwf. rewrite append_eq. apply add_to_buffer_wf, Hwf. Qed.

Lemma append_queue st data :
  wf st ->
  queue (snd (append st data)) =
  (if line_count st <? MAX_STRINGS then queue st else drop 1 (queue st))
  ++ [record_of data].
Proof.
  intros Hwf. rewrite append_eq. simpl snd.
  rewrite add_to_buffer_queue by exact Hwf. do 2 f_equal.
  rewrite record_of_kbuf by (rewrite length_take; unfold STR_SIZE; lia).
  reflexivity.
Qed.

Lemma append_line_count st data :
  wf st ->
  line_count (snd (append st data)) = Z.min (line_count st + 1) MAX_STRINGS.
Proof.
  intros ((Hh & Ht & Hn) & _). rewrite append_eq. simpl snd.
  rewrite add_to_buffer_line_count.
  destruct (Z.ltb_spec (line_count st) MAX_STRINGS).
  - rewrite to_int_small by (unfold MAX_STRINGS in *; lia). lia.
  - lia.
Qed.

(** ** Runs of appends and of reads *)

Lemma keep_last_all {A} n (l : list A) : (length l <= n)%nat -> keep_last n l = l.
Proof. intros H. unfold keep_last. replace (length l - n)%nat with 0%nat by lia. reflexivity. Qed.

Lemma keep_last_app {A} n (l r : list A) :
  keep_last n (keep_last n l ++ r) = keep_last n (l ++ r).
Proof.
  destruct (Nat.le_gt_cases (length l) n) as [Hle | Hgt].
  - now rewrite (keep_last_all n l Hle).
  - unfold keep_last. rewrite !length_app, length_drop.
    replace (length l - (length l - n) + length r - n)%nat with (length r) by lia.
    replace (length l + length r - n)%nat with ((length l - n) + length r)%nat by lia.
    rewrite <- drop_drop. f_equal.
    rewrite drop_app_le by lia. reflexivity.
Qed.

Lemma wf_queue_length st : wf st -> Z.of_nat (length (queue st)) = line_count st.
Proof. intros ((_ & _ & Hn) & _). apply queue_length. lia. Qed.

Lemma append_queue_keep st data :
  wf st ->
  queue (snd (append st data)) =
  keep_last (Z.to_nat MAX_STRINGS) (queue st ++ [record_of data]).
Proof.
  intros Hwf. rewrite append_queue by exact Hwf.
  pose proof (wf_queue_length st Hwf) as Hlen.
  destruct Hwf as ((_ & _ & Hn) & _).
  destruct (Z.ltb_spec (line_count st) MAX_STRINGS) as [Hlt | Hge].
  - rewrite keep_last_all; [reflexivity |].
    rewrite length_app. simpl. lia.
  - unfold keep_last. rewrite length_app. simpl length.
    replace (length (queue st) + 1 - Z.to_nat MAX_STRINGS)%nat with 1%nat by lia.
    rewrite drop_app_le; [reflexivity |]. unfold MAX_STRINGS in *. lia.
Qed.

Lemma append_all_cons st a ins :
  append_all st (a :: ins) = append_all (snd (append st a)) ins.
Proof. reflexivity. Qed.

(** After any run of appends the queue holds the last [MAX_STRINGS]
    records, oldest first. *)
Lemma append_all_queue ins : forall st,
  wf st ->
  wf (append_all st ins) /\
  queue (append_all st ins) =
  keep_last (Z.to_nat MAX_STRINGS) (queue st ++ map record_of ins).
Proof.
  induction ins as [| a ins IH]; intros st Hwf.
  - split; [exact Hwf |]. simpl. rewrite app_nil_r.
    rewrite keep_last_all; [reflexivity |].
    pose proof (wf_queue_length st Hwf). destruct Hwf as ((_ & _ & Hn) & _). lia.
  - rewrite append_all_cons.
    destruct (IH _ (append_wf st a Hwf)) as [Hwf' Hq].
    split; [exact Hwf' |].
    rewrite Hq, append_queue_keep by exact Hwf.
    rewrite keep_last_app, <- app_assoc. reflexivity.
Qed.

Lemma init_queue : queue init_state = [].
Proof. reflexivity. Qed.

(** A fresh-session read on an empty buffer. *)
Lemma consume_empty st usr_buf count :
  line_count st <= 0 ->
  consume st usr_buf count = mk_read_result 0 usr_buf 0 st.
Proof.
  intros Hc. unfold consume, proc_read. simpl.
  destruct (Z.leb_spec (line_count st) 0); [reflexivity | lia].
Qed.

(** A fresh-session read with room for the record. *)
Lemma consume_taken st usr_buf count :
  wf st -> 0 < line_count st ->
  (length (oldest st) <= length usr_buf)%nat ->
  rd_ret (consume st usr_buf count) = Z.of_nat (length (oldest st)) /\
  delivered (consume st usr_buf count) = oldest st /\
  rd_state (consume st usr_buf count) = taken st.
Proof.
  intros Hwf Hc Hroom. unfold consume, delivered.
  rewrite proc_read_taken by (assumption || lia). simpl.
  split; [reflexivity |]. split; [| reflexivity].
  rewrite Nat2Z.id. apply take_app_length.
Qed.

Lemma consume_n_queue usr_buf count n : forall st,
  wf st -> (n <= length (queue st))%nat ->
  STR_SIZE - 1 <= Z.of_nat (length usr_buf) ->
  fst (consume_n n st usr_buf count) = map reading (take n (queue st)) /\
  wf (snd (consume_n n st usr_buf count)) /\
  queue (snd (consume_n n st usr_buf count)) = drop n (queue st).
Proof.
  induction n as [| n IH]; intros st Hwf Hn Hroom.
  - simpl. auto.
  - pose proof (wf_queue_length st Hwf) as Hlen.
    assert (Hc : 0 < line_count st) by lia.
    pose proof (oldest_length st Hwf) as Hold.
    destruct (consume_taken st usr_buf count Hwf Hc ltac:(lia)) as (Hret & Hdel & Hst).
    rewrite (queue_uncons st Hc) in *. simpl in Hn.
    specialize (IH (taken st) (taken_wf st Hwf Hc) ltac:(lia) Hroom).
    simpl. rewrite Hret, Hdel, Hst.
    destruct (consume_n n (taken st) usr_buf count) as [rs st'].
    simpl in *. destruct IH as (-> & Hwf' & Hq). auto.
Qed.

(** ** Appending to, and reading from, a well-formed state *)

(** The row an append writes, at the old [head]. *)
Lemma append_row st data :
  wf st ->
  row (circular_buffer (snd (append st data))) (head st)
  = record_of data
    ++ replicate (Z.to_nat STR_SIZE - length (record_of data)) x00.
Proof.
  intros ((Hh & _ & _) & _ & Hr).
  rewrite append_eq. simpl snd. rewrite add_to_buffer_rows.
  rewrite row_insert_eq
    by (destruct Hr as [-> _]; unfold MAX_STRINGS in *; lia).
  rewrite written_row_eq by (apply (rows_ok_row _ _ Hr Hh)).
  rewrite record_of_kbuf by (rewrite length_take; unfold STR_SIZE; lia).
  reflexivity.
Qed.

Lemma record_of_text data :
  Forall (fun c => c <> x00) (take (Z.to_nat (STR_SIZE - 1)) data) ->
  record_of data =
  take (Nat.min (length data) (Z.to_nat (STR_SIZE - 1))) data.
Proof.
  intros Hn. unfold record_of. rewrite (c_str_text _ Hn).
  destruct (Nat.le_gt_cases (length data) (Z.to_nat (STR_SIZE - 1))).
  - rewrite Nat.min_l by lia. rewrite !take_ge by lia. reflexivity.
  - rewrite Nat.min_r by lia. reflexivity.
Qed.

(** The record appended to an empty buffer is the next one read. *)
Lemma append_then_consume st data usr_buf count :
  wf st -> line_count st = 0 ->
  STR_SIZE - 1 <= Z.of_nat (length usr_buf) ->
  rd_ret (consume (snd (append st data)) usr_buf count)
    = Z.of_nat (length (record_of data)) /\
  delivered (consume (snd (append st data)) usr_buf count) = record_of data.
Proof.
  intros Hwf Hc Hroom.
  pose proof (append_wf st data Hwf) as Hwf'.
  pose proof (append_line_count st data Hwf) as Hc'.
  pose proof (append_queue st data Hwf) as Hq.
  rewrite Hc in Hc', Hq. change (0 <? MAX_STRINGS) with true in Hq.
  assert (Hq0 : queue st = []) by (unfold queue; rewrite Hc; reflexivity).
  rewrite Hq0 in Hq. simpl in Hq.
  assert (Hpos : 0 < line_count (snd (append st data)))
    by (rewrite Hc'; unfold MAX_STRINGS; lia).
  rewrite (queue_uncons _ Hpos) in Hq. injection Hq as Hold _.
  pose proof (oldest_length _ Hwf') as Hlen.
  destruct (consume_taken _ usr_buf count Hwf' Hpos ltac:(lia)) as (Hret & Hdel & _).
  rewrite Hret, Hdel, Hold. auto.
Qed.

(** A read that takes a record leaves the state [taken], whether or not the
    copy to the user succeeds. *)
Lemma proc_read_state st usr_buf count pos :
  wf st ->
  rd_state (proc_read st usr_buf count pos) =
  if (0 <? pos) || (line_count st <=? 0) then st else taken st.
Proof.
  intros ((Hh & Ht & Hn) & _).
  destruct (proc_read_cases st usr_buf count pos) as [r Hc -> | r Hp Hc ->].
  - simpl. destruct (Z.ltb_spec 0 pos); [reflexivity |].
    destruct (Z.leb_spec (line_count st) 0); [reflexivity | lia].
  - destruct (Z.ltb_spec 0 pos); [lia |].
    destruct (Z.leb_spec (line_count st) 0); [lia |]. simpl.
    unfold taken. rewrite (advance_index _ Ht).
    rewrite to_int_small by (unfold MAX_STRINGS in *; lia). reflexivity.
Qed.

Lemma step_wf st c : wf st -> wf (step st c).
Proof.
  intros Hwf. destruct c as [usr_buf count | usr_buf count pos]; simpl.
  - destruct (proc_write_state st usr_buf count) as [-> | [kbuf ->]];
      [exact Hwf | apply add_to_buffer_wf, Hwf].
  - rewrite proc_read_state by exact Hwf.
    destruct (Z.ltb_spec 0 pos); [exact Hwf |].
    destruct (Z.leb_spec (line_count st) 0); [exact Hwf |].
    apply taken_wf; [exact Hwf | lia].
Qed.

Lemma run_wf cs : forall st, wf st -> wf (run st cs).
Proof.
  induction cs as [| c cs IH]; intros st Hwf; simpl; [exact Hwf |].
  apply IH, step_wf, Hwf.
Qed.

(** ** The buffer protocol *)

(** C1 (strict FIFO delivery).  Starting from any empty buffer (a
    well-formed state with [line_count = 0], wherever [head] and [tail]
    stand), append the byte sequences [ins], at most [MAX_STRINGS] of them,
    then read once per append, each read in a fresh session into a user
    buffer with room for a record.  The reads return the stored records in
    the order of the appends, each with its length; the next read returns 0
    (end of file) and changes nothing.  The stored record of an input is
    [record_of] of it, which is the input itself whenever the input is a
    record (no zero byte, at most [STR_SIZE - 1] bytes).  An empty record is
    returned as a read of 0 bytes. *)
Theorem fifo_delivery
    (st0 : kstate) (ins : list (list byte)) (usr_buf : list byte) (count : Z) :
  wf st0 -> line_count st0 = 0 ->
  Z.of_nat (length ins) <= MAX_STRINGS ->
  STR_SIZE - 1 <= Z.of_nat (length usr_buf) ->
  let k := length ins in
  let st := append_all st0 ins in
  let st' := snd (consume_n k st usr_buf count) in
  fst (consume_n k st usr_buf count) = map reading (map record_of ins) /\
  consume st' usr_buf count = mk_read_result 0 usr_buf 0 st' /\
  (Forall is_record ins ->
   map snd (fst (consume_n k st usr_buf count)) = ins).
Proof.
  intros Hwf0 Hempty Hk Hroom k st st'.
  destruct (append_all_queue ins st0 Hwf0) as [Hwf Hq].
  fold st in Hwf, Hq.
  assert (Hq0 : queue st0 = []) by (unfold queue; rewrite Hempty; reflexivity).
  rewrite Hq0, app_nil_l in Hq.
  rewrite keep_last_all in Hq by (rewrite length_map; lia).
  assert (Hlen : length (queue st) = k).
  { rewrite Hq, length_map. reflexivity. }
  destruct (consume_n_queue usr_buf count k st Hwf ltac:(lia) Hroom)
    as (Hrs & Hwf' & Hq').
  fold st' in Hwf', Hq'.
  rewrite take_ge in Hrs by lia. rewrite drop_ge in Hq' by lia.
  rewrite Hq in Hrs.
  split; [exact Hrs |]. split.
  - apply consume_empty.
    pose proof (wf_queue_length st' Hwf') as Hl. rewrite Hq' in Hl.
    simpl in Hl. lia.
  - intros Hrec. rewrite Hrs. clear -Hrec.
    induction Hrec as [| a l Ha _ IH]; [reflexivity |].
    simpl. rewrite (record_of_is_record a Ha). f_equal. exact IH.
Qed.

(** An instance that wraps around: the buffer is first filled with eight
    records and emptied again, which leaves [head = tail = 8]. *)
Lemma fifo_delivery_witness :
  let st0 :=
    run init_state
        (map (fun _ => Write (text "z") 1) (seq 0 8)
         ++ map (fun _ => Read (replicate 64 x00) 64 0) (seq 0 8)) in
  (head st0 = 8 /\ tail st0 = 8 /\ line_count st0 = 0) /\
  fst (consume_n 3 (append_all st0 [text "x"; text "y"; text "w"])
                 (replicate 64 x00) 64)
  = [(1, text "x"); (1, text "y"); (1, text "w")].
Proof.
  intros st0. split; [vm_compute; auto |].
  apply (fifo_delivery st0 [text "x"; text "y"; text "w"] (replicate 64 x00) 64).
  - apply run_wf, init_wf.
  - vm_compute. reflexivity.
  - unfold MAX_STRINGS. simpl. lia.
  - unfold STR_SIZE. simpl. lia.
Defined.

(** C2 (overwrite on full).  In a well-formed state whose buffer is full, an
    append advances [tail] by one modulo [MAX_STRINGS], leaves [line_count]
    at [MAX_STRINGS] and drops the oldest record from the queue.  After
    [MAX_STRINGS + 1] appends to the empty buffer, the first read returns
    the record of the second append. *)
Theorem overwrite_on_full
    (st : kstate) (data a1 a2 : list byte) (rest : list (list byte))
    (usr_buf : list byte) (count : Z) :
  wf st -> line_count st = MAX_STRINGS ->
  Z.of_nat (length rest) = MAX_STRINGS - 1 ->
  STR_SIZE - 1 <= Z.of_nat (length usr_buf) ->
  let st' := snd (append st data) in
  let full := append_all init_state (a1 :: a2 :: rest) in
  (tail st' = (tail st + 1) mod MAX_STRINGS /\
   line_count st' = MAX_STRINGS /\
   queue st' = drop 1 (queue st) ++ [record_of data]) /\
  (rd_ret (consume full usr_buf count) = Z.of_nat (length (record_of a2)) /\
   delivered (consume full usr_buf count) = record_of a2).
Proof.
  intros Hwf Hfull Hrest Hroom st' full. split.
  - subst st'. rewrite append_queue by exact Hwf.
    rewrite append_eq. simpl snd.
    rewrite add_to_buffer_tail, add_to_buffer_line_count, Hfull.
    rewrite Z.ltb_irrefl.
    destruct Hwf as ((_ & Ht & _) & _).
    rewrite (advance_index _ Ht). auto.
  - destruct (append_all_queue (a1 :: a2 :: rest) init_state init_wf) as [Hwf' Hq].
    fold full in Hwf', Hq. rewrite init_queue in Hq.
    assert (Hk : keep_last (Z.to_nat MAX_STRINGS)
                   ([] ++ map record_of (a1 :: a2 :: rest))
                 = record_of a2 :: map record_of rest).
    { unfold keep_last. rewrite app_nil_l, length_map. cbn [length map].
      replace (S (S (length rest)) - Z.to_nat MAX_STRINGS)%nat with 1%nat
        by (unfold MAX_STRINGS in *; lia).
      reflexivity. }
    rewrite Hk in Hq. clear Hk.
    pose proof (wf_queue_length full Hwf') as Hl. rewrite Hq in Hl.
    rewrite length_cons in Hl.
    assert (Hc : 0 < line_count full) by lia.
    rewrite (queue_uncons full Hc) in Hq. injection Hq as Hold _.
    pose proof (oldest_length full Hwf') as Hlen.
    destruct (consume_taken full usr_buf count Hwf' Hc ltac:(lia)) as (Hret & Hdel & _).
    rewrite Hret, Hdel, Hold. auto.
Qed.

Lemma overwrite_on_full_witness :
  let st := append_all init_state (replicate 10 (text "old")) in
  let ins := map (fun c => [c]) [x30; x31; x32; x33; x34; x35; x36; x37; x38; x39; x61] in
  tail (snd (append st (text "new"))) = 1 /\
  line_count (snd (append st (text "new"))) = 10 /\
  delivered (consume (append_all init_state ins) (replicate 64 x00) 64) = [x31].
Proof.
  intros st ins.
  destruct (overwrite_on_full st (text "new") [x30] [x31]
              (map (fun c => [c]) [x32; x33; x34; x35; x36; x37; x38; x39; x61])
              (replicate 64 x00) 64) as [(Ht & Hc & _) [_ Hd]].
  - apply append_all_queue, init_wf.
  - reflexivity.
  - reflexivity.
  - vm_compute. discriminate.
  - split; [exact Ht |]. split; [exact Hc | exact Hd].
Defined.

(** C3 (truncation), amended.  For a byte sequence whose first
    [min (length, STR_SIZE - 1)] bytes hold no zero byte, an append to a
    well-formed state stores exactly those bytes in the row at [head],
    followed by the terminator, whatever the length of the input; appended
    to an empty buffer, the record is then read back with that length.  (A
    zero byte among them ends the stored record earlier.) *)
Theorem truncation_of_text
    (st : kstate) (data usr_buf : list byte) (count : Z) :
  wf st ->
  Forall (fun c => c <> x00) (take (Z.to_nat (STR_SIZE - 1)) data) ->
  STR_SIZE - 1 <= Z.of_nat (length usr_buf) ->
  let len := Nat.min (length data) (Z.to_nat (STR_SIZE - 1)) in
  truncation_claim st data /\
  snd (append st data)
    = add_to_buffer st (take (Z.to_nat (STR_SIZE - 1)) data ++ [x00]) /\
  (line_count st = 0 ->
   rd_ret (consume (snd (append st data)) usr_buf count) = Z.of_nat len /\
   delivered (consume (snd (append st data)) usr_buf count) = take len data).
Proof.
  intros Hwf Hn Hroom len.
  pose proof (record_of_text data Hn) as Hrec. fold len in Hrec.
  assert (Hlen : length (record_of data) = len).
  { rewrite Hrec, length_take. lia. }
  split; [| split].
  - unfold truncation_claim. fold len. cbv zeta.
    rewrite append_row by exact Hwf. rewrite Hlen. split.
    + rewrite take_app_length' by (symmetry; exact Hlen). exact Hrec.
    + rewrite lookup_app_r by lia. rewrite Hlen, Nat.sub_diag.
      apply lookup_replicate_2.
      subst len. change (Z.to_nat STR_SIZE) with 64%nat.
      change (Z.to_nat (STR_SIZE - 1)) with 63%nat. lia.
  - rewrite append_eq. reflexivity.
  - intros Hc.
    destruct (append_then_consume st data usr_buf count Hwf Hc Hroom) as [Hret Hdel].
    rewrite Hret, Hdel, Hlen, Hrec. auto.
Qed.

Lemma truncation_of_text_witness :
  rd_ret (consume (snd (append init_state (replicate 100 x61)))
                  (replicate 64 x00) 64) = 63 /\
  delivered (consume (snd (append init_state (replicate 100 x61)))
                     (replicate 64 x00) 64) = replicate 63 x61.
Proof.
  destruct (truncation_of_text init_state (replicate 100 x61)
              (replicate 64 x00) 64) as (_ & _ & H).
  - apply init_wf.
  - vm_compute. repeat constructor; discriminate.
  - vm_compute. discriminate.
  - apply H. reflexivity.
Defined.

(** C3 as worded fails on a byte sequence with a zero byte inside: of
    [a; 0; b] the third byte is not stored, and a 100-byte input that starts
    with a zero byte is read back with length 0, not 63. *)
Lemma truncation_claim_fails :
  ~ truncation_claim init_state [x61; x00; x62] /\
  rd_ret (consume (snd (append init_state (x00 :: replicate 99 x61)))
                  (replicate 64 x00) 64) <> 63.
Proof.
  split.
  - intros [H _]. vm_compute in H. discriminate H.
  - vm_compute. discriminate.
Qed.

(** C4 (no mutation on a faulting read): the code does not do this.  With
    one record stored, a fresh-session read into a user buffer that cannot
    be written returns [-EFAULT] after [tail] and [line_count] have been
    advanced: the state is not the one before the call, the record is gone
    from the queue, and the next read finds the buffer empty. *)
Theorem read_fault_drops_record :
  let st := snd (append init_state (text "hi")) in
  let r := proc_read st [] 64 0 in
  queue st = [text "hi"] /\
  rd_ret r = - EFAULT /\
  rd_state r = taken st /\
  queue (rd_state r) = [] /\
  rd_ret (consume (rd_state r) (replicate 64 x00) 64) = 0 /\
  ~ read_atomic_claim st [] 64 0.
Proof.
  intros st r.
  do 5 (split; [vm_compute; reflexivity |]).
  intros H. specialize (H eq_refl).
  apply (f_equal line_count) in H. vm_compute in H. discriminate H.
Qed.

(** C5 (reading an empty buffer).  When [line_count] is 0 a read returns 0,
    the end-of-file value and not an error code, and leaves the state, the
    position and the user buffer as they were, whatever the position; any
    number of further fresh-session reads does the same. *)
Theorem empty_consume_is_noop
    (st : kstate) (usr_buf : list byte) (count pos : Z) (n : nat) :
  line_count st = 0 ->
  proc_read st usr_buf count pos = mk_read_result 0 usr_buf pos st /\
  consume_n n st usr_buf count = (replicate n (0, []), st).
Proof.
  intros Hc. split.
  - unfold proc_read. rewrite Hc. simpl. destruct (0 <? pos); reflexivity.
  - induction n as [| n IH]; [reflexivity |].
    simpl. rewrite consume_empty by lia. simpl. rewrite IH. reflexivity.
Qed.

Lemma empty_consume_is_noop_witness :
  proc_read init_state (replicate 64 x00) 64 0
    = mk_read_result 0 (replicate 64 x00) 0 init_state /\
  consume_n 5 init_state (replicate 64 x00) 64 = (replicate 5 (0, []), init_state).
Proof.
  apply (empty_consume_is_noop init_state (replicate 64 x00) 64 0 5).
  reflexivity.
Defined.



(** C7 (value returned by an append).  An append of a byte sequence returns
    the length of the whole sequence, also when only the first
    [STR_SIZE - 1] bytes are kept; the value is not an error code.  (The
    length fits [ssize_t], as that of any object in memory does.) *)
Theorem append_returns_request_length (st : kstate) (data : list byte) :
  Z.of_nat (length data) <= SSIZE_MAX ->
  fst (append st data) = Z.of_nat (length data) /\
  0 <= fst (append st data) /\
  snd (append st data)
    = add_to_buffer st (take (Z.to_nat (STR_SIZE - 1)) data ++ [x00]).
Proof.
  intros Hl. rewrite append_eq. simpl.
  rewrite to_ssize_t_small by (unfold SSIZE_MAX in *; lia).
  split; [reflexivity |]. split; [lia | reflexivity].
Qed.

Lemma append_returns_request_length_witness :
  fst (append init_state (replicate 100 x61)) = 100.
Proof.
  apply (append_returns_request_length init_state (replicate 100 x61)).
  vm_compute. discriminate.
Defined.

(** C8 (indices in range).  After any sequence of write and read calls from
    the initial state, [head] and [tail] lie in [0, MAX_STRINGS) and
    [line_count] in [0, MAX_STRINGS]; a further call leaves each index where
    it was or advances it by one modulo [MAX_STRINGS]. *)
Theorem indices_stay_in_range (cs : list call) (c : call) :
  let st := run init_state cs in
  (0 <= head st < MAX_STRINGS /\
   0 <= tail st < MAX_STRINGS /\
   0 <= line_count st <= MAX_STRINGS) /\
  (head (step st c) = head st \/
   head (step st c) = (head st + 1) mod MAX_STRINGS) /\
  (tail (step st c) = tail st \/
   tail (step st c) = (tail st + 1) mod MAX_STRINGS).
Proof.
  intros st.
  pose proof (run_indices cs init_state init_indices) as Hi. fold st in Hi.
  split; [exact Hi |]. destruct Hi as (Hh & Ht & Hn).
  destruct c as [usr_buf count | usr_buf count pos]; simpl.
  - destruct (proc_write_state st usr_buf count) as [-> | [kbuf ->]]; [auto |].
    rewrite add_to_buffer_head, add_to_buffer_tail.
    rewrite (advance_index _ Hh), (advance_index _ Ht).
    destruct (line_count st <? MAX_STRINGS); auto.
  - destruct (proc_read_cases st usr_buf count pos) as [r _ -> | r _ _ ->];
      [auto |].
    simpl. rewrite (advance_index _ Ht). auto.
Qed.

(** C9 (head follows tail).  After any sequence of write and read calls from
    the initial state, [head = (tail + line_count) mod MAX_STRINGS]. *)
Theorem head_is_tail_plus_count (cs : list call) :
  let st := run init_state cs in
  head st = (tail st + line_count st) mod MAX_STRINGS.
Proof.
  intros st. apply (run_follows cs init_state init_indices init_follows).
Qed.

(** C10 (the requested byte count is ignored).  A fresh-session read on a
    well-formed state with an unread record, into user memory with room for
    it, returns the length of the oldest record and delivers its bytes,
    whatever [count] is: the result is the same for any two values of
    [count], and exceeds [count] when [count] is smaller than the record. *)
Theorem read_ignores_requested_count
    (st : kstate) (usr_buf : list byte) (count count' : Z) :
  wf st -> 0 < line_count st ->
  (length (oldest st) <= length usr_buf)%nat ->
  rd_ret (consume st usr_buf count) = Z.of_nat (length (oldest st)) /\
  delivered (consume st usr_buf count) = oldest st /\
  consume st usr_buf count = consume st usr_buf count' /\
  (count < Z.of_nat (length (oldest st)) ->
   count < rd_ret (consume st usr_buf count)).
Proof.
  intros Hwf Hc Hroom.
  destruct (consume_taken st usr_buf count Hwf Hc Hroom) as (Hret & Hdel & _).
  split; [exact Hret |]. split; [exact Hdel |]. split.
  - unfold consume. rewrite !proc_read_taken by (assumption || lia). reflexivity.
  - intros Hlt. rewrite Hret. exact Hlt.
Qed.

Lemma read_ignores_requested_count_witness :
  let st := snd (append init_state (text "hello")) in
  rd_ret (consume st (replicate 64 x00) 1) = 5 /\
  delivered (consume st (replicate 64 x00) 1) = text "hello" /\
  1 < rd_ret (consume st (replicate 64 x00) 1).
Proof.
  intros st.
  destruct (read_ignores_requested_count st (replicate 64 x00) 1 64)
    as (Hret & Hdel & _ & Hgt).
  - apply append_wf, init_wf.
  - vm_compute. reflexivity.
  - vm_compute. lia.
  - split; [exact Hret |]. split; [exact Hdel |].
    apply Hgt. vm_compute. reflexivity.
Defined.

(** ** Further properties of the three functions *)

Lemma add_to_buffer_queue_keep st input :
  wf st ->
  queue (add_to_buffer st input) =
  keep_last (Z.to_nat MAX_STRINGS) (queue st ++ [record_of input]).
Proof.
  intros Hwf. rewrite add_to_buffer_queue by exact Hwf.
  pose proof (wf_queue_length st Hwf) as Hlen.
  destruct Hwf as ((_ & _ & Hn) & _).
  destruct (Z.ltb_spec (line_count st) MAX_STRINGS) as [Hlt | Hge].
  - rewrite keep_last_all; [reflexivity |].
    rewrite length_app. simpl. lia.
  - unfold keep_last. rewrite length_app. simpl length.
    replace (length (queue st) + 1 - Z.to_nat MAX_STRINGS)%nat with 1%nat by lia.
    rewrite drop_app_le; [reflexivity |]. unfold MAX_STRINGS in *. lia.
Qed.

Lemma step_queue st c : wf st -> queue (step st c) = queue_step (queue st) c.
Proof.
  intros Hwf. destruct c as [usr_buf count | usr_buf count pos]; simpl.
  - destruct (Nat.leb_spec (Z.to_nat (Z.min count (STR_SIZE - 1))) (length usr_buf))
      as [Hle | Hgt].
    + rewrite proc_write_ok by lia. simpl snd.
      rewrite add_to_buffer_queue_keep by exact Hwf.
      rewrite record_of_kbuf; [reflexivity |].
      rewrite length_take. unfold STR_SIZE. lia.
    + rewrite proc_write_fault by lia. reflexivity.
  - rewrite proc_read_state by exact Hwf.
    destruct (Z.ltb_spec 0 pos); [reflexivity |].
    destruct (Z.leb_spec (line_count st) 0) as [Hc | Hc]; simpl.
    + pose proof (wf_queue_length st Hwf) as Hl.
      destruct Hwf as ((_ & _ & Hn) & _).
      destruct (queue st); [reflexivity | simpl in Hl; lia].
    + rewrite (queue_uncons st Hc). reflexivity.
Qed.

Lemma run_queue cs : forall st,
  wf st -> queue (run st cs) = queue_run (queue st) cs.
Proof.
  induction cs as [| c cs IH]; intros st Hwf; simpl; [reflexivity |].
  rewrite IH by (apply step_wf, Hwf). rewrite step_queue by exact Hwf.
  reflexivity.
Qed.

(** Reading out a whole queue. *)
Lemma drain_queue st usr_buf count :
  wf st -> STR_SIZE - 1 <= Z.of_nat (length usr_buf) ->
  fst (consume_n (length (queue st)) st usr_buf count) = map reading (queue st) /\
  line_count (snd (consume_n (length (queue st)) st usr_buf count)) = 0.
Proof.
  intros Hwf Hroom.
  destruct (consume_n_queue usr_buf count (length (queue st)) st Hwf
              ltac:(lia) Hroom) as (Hrs & Hwf' & Hq).
  rewrite take_ge in Hrs by lia. rewrite drop_ge in Hq by lia.
  split; [exact Hrs |].
  pose proof (wf_queue_length _ Hwf') as Hl. rewrite Hq in Hl.
  simpl in Hl. lia.
Qed.

Lemma keep_last_length {A} n (l : list A) :
  length (keep_last n l) = Nat.min n (length l).
Proof. unfold keep_last. rewrite length_drop. lia. Qed.

(** X1 (a write faults exactly when its bytes are unreadable).  For a
    request length that fits [ssize_t], [proc_write] returns [-EFAULT]
    exactly when fewer than [min (count, STR_SIZE - 1)] bytes are readable
    at [usr_buf]; in that case the state is untouched, and otherwise the
    value returned is [count]. *)
Theorem write_fault_iff (st : kstate) (usr_buf : list byte) (count : Z) :
  0 <= count <= SSIZE_MAX ->
  (fst (proc_write st usr_buf count) = - EFAULT <->
   Z.of_nat (length usr_buf) < Z.min count (STR_SIZE - 1)) /\
  (fst (proc_write st usr_buf count) = - EFAULT ->
   snd (proc_write st usr_buf count) = st) /\
  (fst (proc_write st usr_buf count) <> - EFAULT ->
   fst (proc_write st usr_buf count) = count).
Proof.
  intros Hc.
  destruct (Z.lt_ge_cases (Z.of_nat (length usr_buf)) (Z.min count (STR_SIZE - 1)))
    as [Hlt | Hge].
  - rewrite proc_write_fault by exact Hlt. simpl.
    split; [tauto |]. split; [reflexivity | congruence].
  - rewrite proc_write_ok by exact Hge. simpl.
    rewrite to_ssize_t_small by (unfold SSIZE_MAX in *; lia).
    unfold EFAULT. split; [split; lia |]. split; [lia | reflexivity].
Qed.

Lemma write_fault_iff_witness :
  snd (proc_write init_state (text "ab") 5) = init_state /\
  fst (proc_write init_state (text "abcde") 5) = 5.
Proof.
  destruct (write_fault_iff init_state (text "ab") 5) as ([_ H1] & H2 & _).
  { vm_compute. split; discriminate. }
  destruct (write_fault_iff init_state (text "abcde") 5) as (_ & _ & H3).
  { vm_compute. split; discriminate. }
  split.
  - apply H2, H1. vm_compute. reflexivity.
  - apply H3. vm_compute. discriminate.
Defined.

(** X2 (bytes beyond the limit are never looked at).  Two user buffers
    that agree on their first [STR_SIZE - 1] bytes give the same result and
    the same state, whatever [count] is. *)
Theorem write_ignores_bytes_beyond_limit
    (st : kstate) (usr1 usr2 : list byte) (count : Z) :
  take (Z.to_nat (STR_SIZE - 1)) usr1 = take (Z.to_nat (STR_SIZE - 1)) usr2 ->
  proc_write st usr1 count = proc_write st usr2 count.
Proof.
  intros Heq. unfold proc_write, copy_from_user.
  set (n := Z.to_nat (Z.min count (STR_SIZE - 1))).
  assert (Hn : (n <= Z.to_nat (STR_SIZE - 1))%nat) by (subst n; lia).
  assert (Htake : take n usr1 = take n usr2).
  { replace n with (Nat.min n (Z.to_nat (STR_SIZE - 1))) by lia.
    rewrite <- !take_take, Heq. reflexivity. }
  assert (Hlen : (n <=? length usr1)%nat = (n <=? length usr2)%nat).
  { apply (f_equal length) in Heq. rewrite !length_take in Heq.
    destruct (Nat.leb_spec n (length usr1)), (Nat.leb_spec n (length usr2));
      (reflexivity || lia). }
  rewrite Hlen, Htake. reflexivity.
Qed.

Lemma write_ignores_bytes_beyond_limit_witness :
  proc_write init_state (replicate 63 x61 ++ text "left") 67
  = proc_write init_state (replicate 63 x61 ++ text "right") 67.
Proof.
  apply write_ignores_bytes_beyond_limit. reflexivity.
Defined.

(** X4 (rows stay terminated).  After any sequence of calls from the
    initial state the buffer still has [MAX_STRINGS] rows, and every row has
    [STR_SIZE] bytes, a terminator in the last one, and so a string of at
    most [STR_SIZE - 1] bytes: [strlen] in [proc_read] never runs past its
    row. *)
Theorem rows_stay_terminated (cs : list call) (i : Z) :
  0 <= i < MAX_STRINGS ->
  let st := run init_state cs in
  let r := row (circular_buffer st) i in
  Z.of_nat (length (circular_buffer st)) = MAX_STRINGS /\
  Z.of_nat (length r) = STR_SIZE /\
  r !! Z.to_nat (STR_SIZE - 1) = Some x00 /\
  Z.of_nat (strlen r) <= STR_SIZE - 1.
Proof.
  intros Hi st r.
  destruct (run_wf cs init_state init_wf) as (_ & _ & Hr). fold st in Hr.
  pose proof (rows_ok_row _ i Hr Hi) as Hrow. fold r in Hrow.
  destruct Hr as [Hlen _].
  split; [rewrite Hlen; unfold MAX_STRINGS; lia |].
  split; [destruct Hrow as [-> _]; unfold STR_SIZE; lia |].
  split; [apply Hrow | apply row_ok_strlen, Hrow].
Qed.

Lemma rows_stay_terminated_witness :
  let st := run init_state [Write (replicate 100 x61) 100;
                            Read (replicate 64 x00) 64 0] in
  Z.of_nat (strlen (row (circular_buffer st) 0)) <= STR_SIZE - 1.
Proof.
  intros st.
  apply (rows_stay_terminated
           [Write (replicate 100 x61) 100; Read (replicate 64 x00) 64 0] 0).
  unfold MAX_STRINGS. lia.
Defined.

(** X5 (what a read can return).  In any state reached from the initial
    one, a read with any arguments returns [-EFAULT] or a length between 0
    and [STR_SIZE - 1], and the bytes it delivers contain no zero byte. *)
Theorem read_return_range
    (cs : list call) (usr_buf : list byte) (count pos : Z) :
  let r := proc_read (run init_state cs) usr_buf count pos in
  (rd_ret r = - EFAULT \/ 0 <= rd_ret r <= STR_SIZE - 1) /\
  Forall (fun c => c <> x00) (delivered r).
Proof.
  set (st := run init_state cs). intros r.
  pose proof (run_wf cs init_state init_wf) as Hwf. fold st in Hwf.
  assert (Heof : proc_read st usr_buf count pos = mk_read_result 0 usr_buf pos st ->
                 (rd_ret r = - EFAULT \/ 0 <= rd_ret r <= STR_SIZE - 1) /\
                 Forall (fun c => c <> x00) (delivered r)).
  { intros E. unfold delivered. subst r. rewrite E. simpl.
    split; [right; unfold STR_SIZE; lia | constructor]. }
  destruct (Z.lt_ge_cases 0 pos) as [Hp | Hp].
  { apply Heof. unfold proc_read.
    destruct (Z.ltb_spec 0 pos); [reflexivity | lia]. }
  destruct (Z.le_gt_cases (line_count st) 0) as [Hc | Hc].
  { apply Heof. unfold proc_read.
    destruct (Z.ltb_spec 0 pos); [reflexivity |].
    destruct (Z.leb_spec (line_count st) 0); [reflexivity | lia]. }
  pose proof (oldest_length st Hwf) as Hlen.
  destruct (Nat.le_gt_cases (length (oldest st)) (length usr_buf)) as [Hroom | Hroom].
  - unfold delivered. subst r.
    rewrite proc_read_taken by (assumption || lia). simpl.
    split; [right; lia |].
    rewrite Nat2Z.id, take_app_length. apply c_str_no_nul.
  - destruct (proc_read_fault st usr_buf count pos Hwf ltac:(lia) ltac:(lia) Hroom)
      as (Hret & _ & _).
    unfold delivered. subst r. rewrite Hret.
    split; [left; reflexivity | constructor].
Qed.

(** X6 (the buffer is a bounded first-in first-out queue).  After any
    sequence of write and read calls from the initial state, with any
    arguments, the unread records are those of the queue model run on the
    same calls: a readable write adds the string of its first
    [min (count, STR_SIZE - 1)] bytes and keeps the last [MAX_STRINGS]
    records, a read at a position that is not positive removes the oldest
    record (also when its copy to the user faults), and the other calls
    change nothing. *)
Theorem queue_refines_bounded_fifo (cs : list call) :
  queue (run init_state cs) = queue_run [] cs /\
  Z.of_nat (length (queue_run [] cs)) = line_count (run init_state cs).
Proof.
  pose proof (run_queue cs init_state init_wf) as Hq.
  rewrite init_queue in Hq. split; [exact Hq |].
  rewrite <- Hq. apply wf_queue_length, run_wf, init_wf.
Qed.

(** X7 (reading everything out).  After any sequence of calls from the
    initial state, as many fresh-session reads as the queue model has
    records, each into user memory with room for a record, return exactly
    the records of the model, oldest first, and leave the buffer empty. *)
Theorem drain_after_run (cs : list call) (usr_buf : list byte) (count : Z) :
  STR_SIZE - 1 <= Z.of_nat (length usr_buf) ->
  let st := run init_state cs in
  let q := queue_run [] cs in
  fst (consume_n (length q) st usr_buf count) = map reading q /\
  line_count (snd (consume_n (length q) st usr_buf count)) = 0.
Proof.
  intros Hroom st q.
  pose proof (run_wf cs init_state init_wf) as Hwf. fold st in Hwf.
  pose proof (run_queue cs init_state init_wf) as Hq.
  rewrite init_queue in Hq. fold st q in Hq.
  rewrite <- Hq. apply drain_queue; assumption.
Qed.

Lemma drain_after_run_witness :
  fst (consume_n 2
         (run init_state [Write (text "a") 1; Write (text "b") 1;
                          Read [] 64 0; Write (text "c") 1;
                          Read (replicate 64 x00) 64 7])
         (replicate 64 x00) 64)
  = [(1, text "b"); (1, text "c")].
Proof.
  apply (drain_after_run
           [Write (text "a") 1; Write (text "b") 1; Read [] 64 0;
            Write (text "c") 1; Read (replicate 64 x00) 64 7]
           (replicate 64 x00) 64).
  vm_compute. discriminate.
Defined.

(** X8 (only the last records survive).  After appending any number of
    byte sequences to the empty buffer, [line_count] is the smaller of that
    number and [MAX_STRINGS], and reading that many times returns the
    records of the last [MAX_STRINGS] appends, oldest first. *)
Theorem appends_keep_last_records
    (ins : list (list byte)) (usr_buf : list byte) (count : Z) :
  STR_SIZE - 1 <= Z.of_nat (length usr_buf) ->
  let st := append_all init_state ins in
  let kept := keep_last (Z.to_nat MAX_STRINGS) (map record_of ins) in
  line_count st = Z.min (Z.of_nat (length ins)) MAX_STRINGS /\
  length kept = Z.to_nat (line_count st) /\
  fst (consume_n (length kept) st usr_buf count) = map reading kept.
Proof.
  intros Hroom st kept.
  destruct (append_all_queue ins init_state init_wf) as [Hwf Hq].
  fold st in Hwf, Hq. rewrite init_queue, app_nil_l in Hq. fold kept in Hq.
  pose proof (wf_queue_length st Hwf) as Hl. rewrite Hq in Hl.
  assert (Hk : length kept = Nat.min (Z.to_nat MAX_STRINGS) (length ins)).
  { subst kept. rewrite keep_last_length, length_map. reflexivity. }
  split; [unfold MAX_STRINGS in *; lia |]. split; [lia |].
  rewrite <- Hq. apply drain_queue; assumption.
Qed.

Lemma appends_keep_last_records_witness :
  let ins := map (fun n => replicate n x61) (seq 1 12) in
  line_count (append_all init_state ins) = 10 /\
  fst (consume_n 10 (append_all init_state ins) (replicate 64 x00) 64)
  = map reading (map (fun n => replicate n x61) (seq 3 10)).
Proof.
  intros ins.
  destruct (appends_keep_last_records ins (replicate 64 x00) 64)
    as (Hc & _ & Hd).
  - vm_compute. discriminate.
  - split; [exact Hc | exact Hd].
Defined.

(** X9 (a write replaces one whole row).  An append to a well-formed state
    leaves in the row at the old [head] the record followed by terminators
    only, so that no byte of the row's previous content remains, and leaves
    every other row as it was. *)
Theorem write_overwrites_whole_row (st : kstate) (data : list byte) (i : Z) :
  wf st -> 0 <= i -> i <> head st ->
  let st' := snd (append st data) in
  row (circular_buffer st') (head st)
    = record_of data
      ++ replicate (Z.to_nat STR_SIZE - length (record_of data)) x00 /\
  row (circular_buffer st') i = row (circular_buffer st) i.
Proof.
  intros Hwf Hi Hne st'. split; [apply append_row, Hwf |].
  subst st'. rewrite append_eq. simpl snd. rewrite add_to_buffer_rows.
  destruct Hwf as ((Hh & _ & _) & _).
  apply row_insert_ne; [lia | exact Hi | congruence].
Qed.

Lemma write_overwrites_whole_row_witness :
  let st := run init_state (map (fun _ => Write (text "a long record") 13) (seq 0 10)) in
  row (circular_buffer (snd (append st (text "b")))) 0
    = text "b" ++ replicate 63 x00 /\
  row (circular_buffer (snd (append st (text "b")))) 1 = row (circular_buffer st) 1.
Proof.
  intros st.
  apply (write_overwrites_whole_row st (text "b") 1).
  - apply run_wf, init_wf.
  - lia.
  - vm_compute. discriminate.
Defined.

(** X10 (a write of no bytes still stores a record).  A write with
    [count = 0] succeeds whatever the user pointer is, returns 0 and stores
    an empty record; when the buffer is full it pushes out the oldest
    record like any other write. *)
Theorem empty_write_takes_a_slot (st : kstate) (usr_buf : list byte) :
  wf st ->
  fst (proc_write st usr_buf 0) = 0 /\
  queue (snd (proc_write st usr_buf 0))
    = keep_last (Z.to_nat MAX_STRINGS) (queue st ++ [[]]) /\
  (line_count st = MAX_STRINGS ->
   queue (snd (proc_write st usr_buf 0)) = drop 1 (queue st) ++ [[]]).
Proof.
  intros Hwf.
  rewrite proc_write_ok by (unfold STR_SIZE; lia). simpl fst. simpl snd.
  split; [reflexivity |]. split.
  - rewrite add_to_buffer_queue_keep by exact Hwf. reflexivity.
  - intros Hfull. rewrite add_to_buffer_queue by exact Hwf.
    rewrite Hfull, Z.ltb_irrefl. reflexivity.
Qed.

Lemma empty_write_takes_a_slot_witness :
  let st := append_all init_state (map (fun n => replicate n x61) (seq 1 10)) in
  queue (snd (proc_write st [] 0))
  = map (fun n => replicate n x61) (seq 2 9) ++ [[]].
Proof.
  intros st.
  destruct (empty_write_takes_a_slot st []) as (_ & _ & H).
  - apply append_all_queue, init_wf.
  - rewrite H; reflexivity.
Defined.

(** X11 (an empty record reads like end of file).  When the oldest record
    is empty, a fresh-session read returns 0, the value that also signals an
    empty buffer, writes nothing to the user and leaves the position at 0;
    yet the record is taken out of the buffer. *)
Theorem empty_record_reads_as_eof
    (st : kstate) (usr_buf : list byte) (count : Z) :
  wf st -> 0 < line_count st -> oldest st = [] ->
  proc_read st usr_buf count 0 = mk_read_result 0 usr_buf 0 (taken st) /\
  queue (taken st) = drop 1 (queue st).
Proof.
  intros Hwf Hc Hold. split.
  - rewrite proc_read_taken by (assumption || rewrite ?Hold; simpl; lia).
    rewrite Hold. reflexivity.
  - rewrite (queue_uncons st Hc). reflexivity.
Qed.

Lemma empty_record_reads_as_eof_witness :
  let st := run init_state [Write [] 0; Write (text "next") 4] in
  rd_ret (proc_read st [] 64 0) = 0 /\
  queue (rd_state (proc_read st [] 64 0)) = [text "next"].
Proof.
  intros st.
  destruct (empty_record_reads_as_eof st [] 64) as [-> Hq].
  - apply run_wf, init_wf.
  - vm_compute. reflexivity.
  - reflexivity.
  - split; [reflexivity | simpl rd_state; rewrite Hq; reflexivity].
Defined.

Lemma read_session_eof usr_buf count n : forall st pos,
  0 < pos ->
  read_session n st usr_buf count pos = (replicate n (0, []), pos, st).
Proof.
  induction n as [| n IH]; intros st pos Hp; [reflexivity |].
  simpl. unfold proc_read at 1 2 3 4.
  destruct (Z.ltb_spec 0 pos); [| lia]. simpl.
  rewrite IH by exact Hp. reflexivity.
Qed.

(** X12 (one record per open file).  Through one open file, starting at
    position 0 on a well-formed state whose oldest record is not empty, the
    first read delivers that record and moves the position to its length;
    all later reads return 0 and change nothing, however many records are
    left. *)
Theorem one_record_per_session
    (n : nat) (st : kstate) (usr_buf : list byte) (count : Z) :
  wf st -> 0 < line_count st -> oldest st <> [] ->
  (length (oldest st) <= length usr_buf)%nat ->
  read_session (S n) st usr_buf count 0
  = (reading (oldest st) :: replicate n (0, []),
     Z.of_nat (length (oldest st)),
     taken st).
Proof.
  intros Hwf Hc Hne Hroom.
  pose proof (oldest_length st Hwf) as Hlen.
  assert (Hpos : 0 < Z.of_nat (length (oldest st))).
  { destruct (oldest st); [congruence | simpl; lia]. }
  cbn [read_session]. unfold delivered.
  rewrite proc_read_taken by (assumption || lia). cbn [rd_ret rd_usr rd_pos rd_state].
  rewrite to_loff_t_small by (unfold STR_SIZE in *; lia).
  rewrite read_session_eof by lia.
  rewrite Nat2Z.id, take_app_length. reflexivity.
Qed.

Lemma one_record_per_session_witness :
  let st := append_all init_state [text "one"; text "two"] in
  read_session 3 st (replicate 64 x00) 64 0
  = ([(3, text "one"); (0, []); (0, [])], 3, taken st).
Proof.
  intros st.
  apply (one_record_per_session 2 st (replicate 64 x00) 64).
  - apply append_all_queue, init_wf.
  - vm_compute. reflexivity.
  - vm_compute. discriminate.
  - vm_compute. lia.
Defined.

(** X13 (when a read faults).  A read that finds a record (position not
    positive, buffer not empty, well-formed state) returns [-EFAULT] exactly
    when fewer bytes are writable at [usr_buf] than the oldest record is
    long; [count] plays no part.  The record leaves the buffer in either
    case, and on the fault the position is not moved. *)
Theorem read_fault_iff
    (st : kstate) (usr_buf : list byte) (count pos : Z) :
  wf st -> pos <= 0 -> 0 < line_count st ->
  let r := proc_read st usr_buf count pos in
  (rd_ret r = - EFAULT <-> (length usr_buf < length (oldest st))%nat) /\
  rd_state r = taken st /\
  (rd_ret r = - EFAULT -> rd_pos r = pos).
Proof.
  intros Hwf Hp Hc r.
  destruct (Nat.le_gt_cases (length (oldest st)) (length usr_buf)) as [Hroom | Hroom].
  - subst r. rewrite proc_read_taken by assumption. simpl.
    unfold EFAULT. split; [split; lia |]. split; [reflexivity | lia].
  - destruct (proc_read_fault st usr_buf count pos Hwf Hp Hc Hroom)
      as (Hret & Hpos & Hst).
    fold r in Hret, Hpos, Hst.
    split; [split; auto |]. split; auto.
Qed.

Lemma read_fault_iff_witness :
  let st := snd (append init_state (text "hello")) in
  rd_ret (proc_read st (replicate 4 x00) 64 0) = - EFAULT /\
  rd_state (proc_read st (replicate 5 x00) 1 0) = taken st.
Proof.
  intros st.
  destruct (read_fault_iff st (replicate 4 x00) 64 0) as ([_ H1] & _ & _).
  { apply append_wf, init_wf. } { lia. } { vm_compute. reflexivity. }
  destruct (read_fault_iff st (replicate 5 x00) 1 0) as (_ & H2 & _).
  { apply append_wf, init_wf. } { lia. } { vm_compute. reflexivity. }
  split; [apply H1; vm_compute; lia | exact H2].
Defined.

(** X14 ([add_to_buffer] bounds the record itself).  For any kernel string
    handed to [add_to_buffer] in a well-formed state, with or without a
    terminator among its first [STR_SIZE - 1] bytes, the state stays
    well-formed, the record stored has at most [STR_SIZE - 1] bytes and no
    zero byte, and the queue is the old one with that record added, cut to
    its last [MAX_STRINGS] records. *)
Theorem add_to_buffer_bounded_fifo (st : kstate) (input : list byte) :
  wf st ->
  wf (add_to_buffer st input) /\
  queue (add_to_buffer st input)
    = keep_last (Z.to_nat MAX_STRINGS) (queue st ++ [record_of input]) /\
  Z.of_nat (length (record_of input)) <= STR_SIZE - 1 /\
  Forall (fun c => c <> x00) (record_of input) /\
  line_count (add_to_buffer st input) = Z.min (line_count st + 1) MAX_STRINGS.
Proof.
  intros Hwf.
  split; [apply add_to_buffer_wf, Hwf |].
  split; [apply add_to_buffer_queue_keep, Hwf |].
  split; [apply record_of_length |].
  split; [apply record_of_no_nul |].
  destruct Hwf as ((_ & _ & Hn) & _).
  rewrite add_to_buffer_line_count.
  destruct (Z.ltb_spec (line_count st) MAX_STRINGS).
  - rewrite to_int_small by (unfold MAX_STRINGS in *; lia). lia.
  - lia.
Qed.

Lemma add_to_buffer_bounded_fifo_witness :
  queue (add_to_buffer init_state (replicate 200 x61)) = [replicate 63 x61].
Proof.
  destruct (add_to_buffer_bounded_fifo init_state (replicate 200 x61))
    as (_ & Hq & _).
  - apply init_wf.
  - rewrite Hq. reflexivity.
Defined.

End Ouroboros.
